(** * react-translate: locale state and key-based text lookup

    A shallow embedding of [createTranslations] (the factory of
    [LocaleProvider], [useLocale] and [useTranslations]) together with the
    small part of the JavaScript and React run time that the factory
    relies on: property reads, truthiness, [createContext], [useContext],
    [useState] and [useMemo].

    A translation table and its inner mappings are ordinary objects: a
    finite map of own properties, with [Object.prototype] behind it. A
    property read goes through the prototype chain, so the built-in
    objects a read can reach ([Object.prototype], its functions, [Object]
    and [Function.prototype]) are modelled with the properties the
    language gives them. The hooks are computations in a
    state-and-exception monad over the machine state (object heap, mounted
    provider fibers, console). *)

From stdpp Require Import base option list gmap strings.

(** ** JavaScript values and completions *)

Abbreviation Locale := string.

(** The inner mapping of a translation table: [Record<Locale, string>]. *)
Abbreviation LocaleRecord := (gmap string string).

(** A translation table: [Record<string, Record<Locale, string>>]. *)
Abbreviation Translations := (gmap string (gmap string string)).

(** What [translate] can hand back: a string or [undefined] and, through
    inherited properties, [null], a number or a built-in object (named as
    the language names its intrinsics, [%Object.prototype.toString%]). *)
Inductive JsValue : Type :=
  | JsUndefined
  | JsString (s : string)
  | JsNull
  | JsNumber (n : nat)
  | JsIntrinsic (name : string).

#[global] Instance JsValue_eq_dec : EqDecision JsValue.
Proof. solve_decision. Defined.

(** A completion record: a normal value or a thrown exception. *)
Inductive Completion (A : Type) : Type :=
  | Normal (a : A)
  | Throw (e : string).
Arguments Normal {A} a.
Arguments Throw {A} e.

(** ** React state *)

(** [SetStateAction<Locale>]: a new value, or an updater of the previous one. *)
Inductive SetStateAction : Type :=
  | NewState (l : Locale)
  | Updater (f : Locale → Locale).

(** [Dispatch<SetStateAction<Locale>>]: the default [() => { }] of the
    context, or the setter that [useState] returned in the fiber [fiber]. *)
Inductive Dispatch : Type :=
  | Noop
  | SetState (fiber : nat).

#[global] Instance Dispatch_eq_dec : EqDecision Dispatch.
Proof. solve_decision. Defined.

(** The value carried by the context: [{ locale, setLocale }]. *)
Record LocaleState : Type := mkLocaleState {
  locale : Locale;
  setLocale : Dispatch
}.

#[global] Instance LocaleState_eq_dec : EqDecision LocaleState.
Proof. solve_decision. Defined.

(** The object made by [createContext]: its identity and default value. *)
Record Context : Type := mkContext {
  ctx_id : nat;
  defaultValue : LocaleState
}.

(** The closure environment of one call of [createTranslations]. *)
Record Factory : Type := mkFactory {
  initialLocale : Locale;
  LocaleContext : Context
}.

(** A mounted [LocaleProvider]: the component it renders, the slot of its
    [useState] (state and pending updates) and the slot of its [useMemo]
    (dependency and value, the value being what the provider hands to its
    descendants). *)
Record Fiber : Type := mkFiber {
  component : Factory;
  memoizedState : Locale;
  queue : list SetStateAction;
  memoDeps : Locale;
  memoValue : LocaleState
}.

Record Machine : Type := mkMachine {
  heap : gmap nat Translations;
  contexts : nat;
  fibers : list Fiber;
  console : list string
}.

Definition set_fibers (fs : list Fiber) (m : Machine) : Machine :=
  {| heap := heap m; contexts := contexts m; fibers := fs; console := console m |}.

Definition set_contexts (n : nat) (m : Machine) : Machine :=
  {| heap := heap m; contexts := n; fibers := fibers m; console := console m |}.

Definition emptyMachine : Machine :=
  {| heap := ∅; contexts := 0; fibers := []; console := [] |}.

(** ** The monad of effectful JavaScript code *)

Definition M (A : Type) : Type := Machine → Completion A * Machine.

#[global] Instance M_ret : MRet M := λ A a m, (Normal a, m).

#[global] Instance M_bind : MBind M := λ A B f c m,
  match c m with
  | (Normal a, m') => f a m'
  | (Throw e, m') => (Throw e, m')
  end.

(** ** Built-in objects *)

(** The built-in objects that an ordinary object inherits as values of its
    properties: [Object.prototype] itself (through [__proto__]), the
    constructor [Object], and the functions of [Object.prototype] with
    their [length]. *)
Inductive Builtin : Type :=
  | ObjectPrototype
  | ObjectConstructor
  | ObjectPrototypeFunction (name : string) (length : nat).

Definition intrinsicName (b : Builtin) : string :=
  match b with
  | ObjectPrototype => "%Object.prototype%"
  | ObjectConstructor => "%Object%"
  | ObjectPrototypeFunction name _ => "%Object.prototype." +:+ name +:+ "%"
  end.

(** An own property of [Object.prototype]: a built-in object, or the
    accessor [__proto__], whose getter returns the prototype of the object
    the read started from. *)
Inductive Slot : Type :=
  | SlotObject (b : Builtin)
  | SlotProto.

(** The functions of [Object.prototype], each with its [length]. *)
Definition objectPrototypeFunctions : list (string * nat) :=
  [ ("__defineGetter__", 2); ("__defineSetter__", 2); ("hasOwnProperty", 1);
    ("__lookupGetter__", 1); ("__lookupSetter__", 1); ("isPrototypeOf", 1);
    ("propertyIsEnumerable", 1); ("toString", 0); ("valueOf", 0);
    ("toLocaleString", 0) ].

(** The own properties of [Object.prototype]. *)
Definition ObjectPrototype_own : gmap string Slot :=
  <["constructor" := SlotObject ObjectConstructor]>
    (<["__proto__" := SlotProto]>
       (list_to_map
          ((λ f, (f.1, SlotObject (ObjectPrototypeFunction f.1 f.2)))
             <$> objectPrototypeFunctions))).

(** An own property of [Function.prototype]: a value, or one of the
    accessors [caller] and [arguments], whose getter throws. *)
Inductive Property : Type :=
  | Data (v : JsValue)
  | Thrower.

Definition FunctionPrototype_own : gmap string Property :=
  list_to_map
    [ ("length", Data (JsNumber 0)); ("name", Data (JsString ""));
      ("arguments", Thrower); ("caller", Thrower);
      ("constructor", Data (JsIntrinsic "%Function%"));
      ("apply", Data (JsIntrinsic "%Function.prototype.apply%"));
      ("bind", Data (JsIntrinsic "%Function.prototype.bind%"));
      ("call", Data (JsIntrinsic "%Function.prototype.call%"));
      ("toString", Data (JsIntrinsic "%Function.prototype.toString%")) ].

(** The functions [Object] carries as own properties. *)
Definition objectStatics : list string :=
  [ "assign"; "create"; "defineProperties"; "defineProperty"; "entries";
    "freeze"; "fromEntries"; "getOwnPropertyDescriptor";
    "getOwnPropertyDescriptors"; "getOwnPropertyNames";
    "getOwnPropertySymbols"; "getPrototypeOf"; "groupBy"; "hasOwn"; "is";
    "isExtensible"; "isFrozen"; "isSealed"; "keys"; "preventExtensions";
    "seal"; "setPrototypeOf"; "values" ].

(** The own properties of a built-in function. *)
Definition function_own (b : Builtin) : gmap string JsValue :=
  match b with
  | ObjectPrototype => ∅
  | ObjectConstructor =>
      <["length" := JsNumber 1]>
        (<["name" := JsString "Object"]>
           (<["prototype" := JsIntrinsic "%Object.prototype%"]>
              (list_to_map
                 ((λ f, (f, JsIntrinsic ("%Object." +:+ f +:+ "%")))
                    <$> objectStatics))))
  | ObjectPrototypeFunction name length =>
      <["length" := JsNumber length]> {[ "name" := JsString name ]}
  end.

(** ** Property reads and truthiness *)

(** What [translations[key]] can be: [undefined], an inner mapping, or a
    built-in object inherited from [Object.prototype]. *)
Inductive TranslationValue : Type :=
  | TvUndefined
  | TvRecord (r : LocaleRecord)
  | TvBuiltin (b : Builtin).

(** [t[P]] on a translation table: the own property, else the property of
    [Object.prototype], else [undefined]. *)
Definition getFromTable (t : Translations) (P : string) : TranslationValue :=
  match t !! P with
  | Some r => TvRecord r
  | None =>
      match ObjectPrototype_own !! P with
      | Some (SlotObject b) => TvBuiltin b
      | Some SlotProto => TvBuiltin ObjectPrototype
      | None => TvUndefined
      end
  end.

(** The read continued at [Object.prototype], for an object whose
    prototype is [proto]. *)
Definition getInherited (proto : JsValue) (P : string) : JsValue :=
  match ObjectPrototype_own !! P with
  | Some (SlotObject b) => JsIntrinsic (intrinsicName b)
  | Some SlotProto => proto
  | None => JsUndefined
  end.

(** [v[P]]: a [TypeError] on [undefined]; on an inner mapping the own
    string, else what [Object.prototype] gives; on a built-in function its
    own property, else the property of [Function.prototype] (the accessors
    [caller] and [arguments] throw), else what [Object.prototype] gives. *)
Definition getV (v : TranslationValue) (P : string) : Completion JsValue :=
  match v with
  | TvUndefined => Throw "TypeError"
  | TvRecord r =>
      match r !! P with
      | Some s => Normal (JsString s)
      | None => Normal (getInherited (JsIntrinsic "%Object.prototype%") P)
      end
  | TvBuiltin ObjectPrototype => Normal (getInherited JsNull P)
  | TvBuiltin b =>
      match function_own b !! P with
      | Some v => Normal v
      | None =>
          match FunctionPrototype_own !! P with
          | Some (Data v) => Normal v
          | Some Thrower => Throw "TypeError"
          | None => Normal (getInherited (JsIntrinsic "%Function.prototype%") P)
          end
      end
  end.

(** [o[P]] where [o] refers to a translation table. A reference that
    designates no object does not occur in a running program; the model
    raises there. *)
Definition Get (o : nat) (P : string) : M TranslationValue := λ m,
  match heap m !! o with
  | Some t => (Normal (getFromTable t P), m)
  | None => (Throw "ReferenceError", m)
  end.

(** [ToBoolean]: [undefined] is falsy, every object is truthy. *)
Definition ToBoolean (v : TranslationValue) : bool :=
  match v with
  | TvUndefined => false
  | TvRecord _ => true
  | TvBuiltin _ => true
  end.

Definition GetV (v : TranslationValue) (P : string) : M JsValue := λ m,
  (getV v P, m).

(** [try { c } catch]: the completion of [c], observed. *)
Definition attempt {A : Type} (c : M A) : M (Completion A) := λ m,
  (Normal (c m).1, (c m).2).

(** ** React primitives *)

Definition createContext (value : LocaleState) : M Context := λ m,
  (Normal {| ctx_id := contexts m; defaultValue := value |},
   set_contexts (S (contexts m)) m).

(** The first provider fiber among the ancestors [env] (nearest first)
    that provides the context numbered [c]. *)
Fixpoint nearestProvider (fs : list Fiber) (c : nat) (env : list nat) : option nat :=
  match env with
  | [] => None
  | id :: env' =>
      match fs !! id with
      | Some f =>
          if decide (ctx_id (LocaleContext (component f)) = c) then Some id
          else nearestProvider fs c env'
      | None => nearestProvider fs c env'
      end
  end.

Definition providedValue (fs : list Fiber) (c : nat) (env : list nat) : option LocaleState :=
  id ← nearestProvider fs c env; f ← fs !! id; Some (memoValue f).

Definition useContext (C : Context) (env : list nat) : M LocaleState := λ m,
  (Normal (default (defaultValue C) (providedValue (fibers m) (ctx_id C) env)), m).

Definition applyAction (prev : Locale) (a : SetStateAction) : Locale :=
  match a with
  | NewState l => l
  | Updater f => f prev
  end.

(** [useState(initial)]: the initial value on mount, afterwards the stored
    state with the pending updates applied in order. *)
Definition useState (initial : Locale) (hook : option Fiber) : Locale :=
  match hook with
  | None => initial
  | Some f => foldl applyAction (memoizedState f) (queue f)
  end.

(** [useMemo(compute, [deps])]. *)
Definition useMemo (compute : unit → LocaleState) (deps : Locale)
    (hook : option Fiber) : LocaleState :=
  match hook with
  | None => compute ()
  | Some f => if decide (memoDeps f = deps) then memoValue f else compute ()
  end.

Definition enqueue (a : SetStateAction) (f : Fiber) : Fiber :=
  {| component := component f; memoizedState := memoizedState f;
     queue := queue f ++ [a]; memoDeps := memoDeps f; memoValue := memoValue f |}.

(** Calling a setter. *)
Definition dispatch (d : Dispatch) (a : SetStateAction) : M unit := λ m,
  match d with
  | Noop => (Normal (), m)
  | SetState id => (Normal (), set_fibers (alter (enqueue a) id (fibers m)) m)
  end.

(** ** The library *)

(** The body of [LocaleProvider], rendered in the fiber numbered [self]
    with hook slots [hook] ([None] on mount). *)
Definition LocaleProvider (F : Factory) (self : nat) (hook : option Fiber) : Fiber :=
  let locale := useState (initialLocale F) hook in
  let setLocale := SetState self in
  let value := useMemo (λ _, {| locale := locale; setLocale := setLocale |}) locale hook in
  {| component := F; memoizedState := locale; queue := [];
     memoDeps := locale; memoValue := value |}.

(** Mounting [<LocaleProvider>]: a new fiber, rendered once. *)
Definition mount (F : Factory) : M nat := λ m,
  let id := length (fibers m) in
  (Normal id, set_fibers (fibers m ++ [LocaleProvider F id None]) m).

(** A fiber with pending updates is rendered again. *)
Definition rerender (id : nat) (f : Fiber) : Fiber :=
  match queue f with
  | [] => f
  | _ :: _ => LocaleProvider (component f) id (Some f)
  end.

(** One propagation cycle. *)
Definition flush : M unit := λ m,
  (Normal (), set_fibers (imap rerender (fibers m)) m).

Fixpoint cycles (n : nat) : M unit :=
  match n with
  | 0 => mret ()
  | S n' => flush;; cycles n'
  end.

Definition useLocale (F : Factory) (env : list nat) : M LocaleState :=
  s ← useContext (LocaleContext F) env;
  mret {| locale := locale s; setLocale := setLocale s |}.

Record Binder : Type := mkBinder {
  translate : string → M JsValue
}.

Definition useTranslations (F : Factory) (env : list nat) (translations : nat) : M Binder :=
  s ← useLocale F env;
  let locale := locale s in
  mret {| translate := λ key,
    translation ← Get translations key;
    if negb (ToBoolean translation) then mret (JsString "")
    else GetV translation locale |}.

Definition createTranslations (initialLocale : Locale) : M Factory :=
  LocaleContext ← createContext {| locale := initialLocale; setLocale := Noop |};
  mret {| initialLocale := initialLocale; LocaleContext := LocaleContext |}.

(** The variant whose [translate] takes the language as an argument. *)
Module Part000.

Record Binder : Type := mkBinder {
  translate : string → Locale → M JsValue
}.

Definition useTranslations (F : Factory) (translations : nat) : M Binder :=
  mret {| translate := λ key language,
    translation ← Get translations key;
    if negb (ToBoolean translation) then mret (JsString "")
    else GetV translation language |}.

End Part000.

(** ** Running the hooks *)

(** The locale a component under the ancestors [env] reads from the
    context of [F]. *)
Definition currentLocale (F : Factory) (env : list nat) (m : Machine) : Locale :=
  locale (default (defaultValue (LocaleContext F))
            (providedValue (fibers m) (ctx_id (LocaleContext F)) env)).

(** The body of [translate] on the table [t], for the key [key] and the
    locale [l]: [table[key][locale]] guarded on the outer lookup only. *)
Definition translateCompletion (t : Translations) (key : string) (l : Locale)
    : Completion JsValue :=
  let translation := getFromTable t key in
  if negb (ToBoolean translation) then Normal (JsString "")
  else getV translation l.

(** Its value ([undefined] where the read raises). *)
Definition lookupText (t : Translations) (key : string) (l : Locale) : JsValue :=
  match translateCompletion t key l with
  | Normal v => v
  | Throw _ => JsUndefined
  end.

(** [P] names no property of [Object.prototype]. *)
Definition notInherited (P : string) : Prop := ObjectPrototype_own !! P = None.

(** [translate(key)] of the binder made in the same render. *)
Definition callTranslate (F : Factory) (env : list nat) (translations : nat)
    (key : string) : M JsValue :=
  b ← useTranslations F env translations; translate b key.

Definition terminates {A : Type} (c : M A) (m : Machine) : Prop :=
  ∃ a m', c m = (Normal a, m').


(** A component under [env] reads the locale [L] from the accessor. *)
Definition readsLocale (F : Factory) (env : list nat) (m : Machine) (L : Locale) : Prop :=
  ∃ d, useLocale F env m = (Normal {| locale := L; setLocale := d |}, m).

(** ** Invariant of the provider fibers *)

(** What [useMemo] holds in a fiber is the state paired with the fiber's
    own setter. *)
Definition fiber_ok (id : nat) (f : Fiber) : Prop :=
  memoDeps f = memoizedState f
  ∧ memoValue f = {| locale := memoizedState f; setLocale := SetState id |}.

Definition wf (m : Machine) : Prop :=
  ∀ id f, fibers m !! id = Some f → fiber_ok id f.

Definition settled (m : Machine) : Prop :=
  ∀ id f, fibers m !! id = Some f → queue f = [].

(** The context each fiber provides. *)
Definition provides (f : Fiber) : nat := ctx_id (LocaleContext (component f)).

(** ** Histories of the machine *)

(** An object literal evaluated at a call site: a new object on the heap. *)
Definition alloc (t : Translations) : M nat := λ m,
  let r := fresh (dom (heap m)) in
  (Normal r,
   {| heap := <[r := t]> (heap m); contexts := contexts m;
      fibers := fibers m; console := console m |}).

(** What a program does to the machine, one operation at a time. *)
Inductive Op : Type :=
  | OpCreate (initial : Locale)
  | OpMount (F : Factory)
  | OpDispatch (d : Dispatch) (a : SetStateAction)
  | OpFlush
  | OpAlloc (t : Translations).

Definition runOp (op : Op) (m : Machine) : Machine :=
  match op with
  | OpCreate initial => (createTranslations initial m).2
  | OpMount F => (mount F m).2
  | OpDispatch d a => (dispatch d a m).2
  | OpFlush => (flush m).2
  | OpAlloc t => (alloc t m).2
  end.

Definition reachable (m : Machine) : Prop :=
  ∃ ops, m = foldl (λ m op, runOp op m) emptyMachine ops.

(** ** A sample application *)

Definition titleTable : Translations :=
  {[ "title" := <["en" := "Hello"]> (<["fr" := "Bonjour"]> {[ "es" := "Hola" ]}) ]}.

(** A table over [Locale = string] whose only key has no French entry. *)
Definition partialTable : Translations :=
  {[ "title" := {[ "en" := "Hello" ]} ]}.

Definition appFactory : Factory :=
  {| initialLocale := "fr";
     LocaleContext := {| ctx_id := 0;
                         defaultValue := {| locale := "fr"; setLocale := Noop |} |} |}.

Definition appMachine : Machine :=
  {| heap := <[0 := titleTable]> {[ 1 := partialTable ]};
     contexts := 1;
     fibers := [LocaleProvider appFactory 0 None];
     console := [] |}.

(** The application after [setLocale(l)] and a propagation cycle. *)
Definition withLocale (l : Locale) : Machine :=
  ((s ← useLocale appFactory [0]; dispatch (setLocale s) (NewState l);; flush)
     appMachine).2.

Definition frenchFactory : Factory := appFactory.

Definition englishFactory : Factory :=
  {| initialLocale := "en";
     LocaleContext := {| ctx_id := 1;
                         defaultValue := {| locale := "en"; setLocale := Noop |} |} |}.

(** Two providers mounted side by side, made by two factories. *)
Definition twoTrees : Machine :=
  {| heap := ∅; contexts := 2;
     fibers := [LocaleProvider frenchFactory 0 None; LocaleProvider englishFactory 1 None];
     console := [] |}.

(** ** The demo application *)

(** [throw new Error(e)]. *)
Definition throw {A : Type} (e : string) : M A := λ m, (Throw e, m).

(** translate.ts: the factory of the application, made with the initial
    locale ["fr"] when the module is loaded. *)
Definition translateModule : M Factory := createTranslations "fr".

(** An event handler of [App], [() => { setLocale(l) }]: the setter it
    closes over and the locale it passes. *)
Record Callback : Type := mkCallback {
  cb_setLocale : Dispatch;
  cb_locale : Locale
}.

(** Running the handler. *)
Definition call (cb : Callback) : M unit :=
  dispatch (cb_setLocale cb) (NewState (cb_locale cb)).

(** [useCallback(fn, [])]: the function of the first render is kept. *)
Definition useCallback (fn : Callback) (hook : option Callback) : Callback :=
  match hook with
  | None => fn
  | Some memo => memo
  end.

(** The three [useCallback] slots of [App]. *)
Record AppHooks : Type := mkAppHooks {
  onEnglishSwitchButtonClick : Callback;
  onSpanishSwitchButtonClick : Callback;
  onFrenchSwitchButtonClick : Callback
}.

(** The elements [App] renders. *)
#[local] Unset Elimination Schemes.
Inductive Element : Type :=
  | Text (s : string)
  | Expr (v : JsValue)
  | Button (onClick : Callback) (children : list Element)
  | H1 (children : list Element)
  | Div (children : list Element).
#[local] Set Elimination Schemes.

(** The object literal passed to [useTranslations] in app.tsx. *)
Definition appTable : Translations :=
  {[ "title" := <["fr" := "Bonjour, tout le monde !"]>
                  (<["en" := "Hello, everyone!"]> {[ "es" := "¡Holà, à todos!" ]}) ]}.

(** The JSX that [App] returns. *)
Definition AppJsx (locale : Locale) (hooks : AppHooks) (title : JsValue) : Element :=
  Div [ Text "Locale: "; Expr (JsString locale);
        Button (onEnglishSwitchButtonClick hooks) [Text "Switch to english"];
        Button (onFrenchSwitchButtonClick hooks) [Text "Passer en français"];
        Button (onSpanishSwitchButtonClick hooks) [Text "Cambiar al Español"];
        H1 [Expr title] ].

(** app.tsx: [App], a component of the factory [F] rendered under the
    ancestors [env] with hook slots [hooks] ([None] on mount). It returns
    its element and its hook slots. *)
Definition App (F : Factory) (env : list nat) (hooks : option AppHooks)
    : M (Element * AppHooks) :=
  s ← useLocale F env;
  let locale := locale s in
  let setLocale := setLocale s in
  let onEnglish :=
    useCallback {| cb_setLocale := setLocale; cb_locale := "en" |}
      (onEnglishSwitchButtonClick <$> hooks) in
  let onSpanish :=
    useCallback {| cb_setLocale := setLocale; cb_locale := "es" |}
      (onSpanishSwitchButtonClick <$> hooks) in
  let onFrench :=
    useCallback {| cb_setLocale := setLocale; cb_locale := "fr" |}
      (onFrenchSwitchButtonClick <$> hooks) in
  translations ← alloc appTable;
  b ← useTranslations F env translations;
  title ← translate b "title";
  let hooks' := {| onEnglishSwitchButtonClick := onEnglish;
                   onSpanishSwitchButtonClick := onSpanish;
                   onFrenchSwitchButtonClick := onFrench |} in
  mret (AppJsx locale hooks' title, hooks').

(** main.tsx: [rootElement] is what [document.getElementById("root")]
    returned. The provider is mounted and [App] rendered under it; the
    result is the provider's fiber, the element on screen and the hook
    slots of [App]. *)
Definition main (F : Factory) (rootElement : option nat)
    : M (nat * (Element * AppHooks)) :=
  match rootElement with
  | None => throw "Root element not found."
  | Some _ =>
      provider ← mount F;
      view ← App F [provider] None;
      mret (provider, view)
  end.

(** The buttons of [App]. *)
Inductive AppButton : Type :=
  | EnglishButton
  | FrenchButton
  | SpanishButton.

(** The [onClick] of a button in the element [AppJsx _ hooks _]. *)
Definition onClickOf (b : AppButton) (hooks : AppHooks) : Callback :=
  match b with
  | EnglishButton => onEnglishSwitchButtonClick hooks
  | FrenchButton => onFrenchSwitchButtonClick hooks
  | SpanishButton => onSpanishSwitchButtonClick hooks
  end.

(** A click: the handler runs, React goes through a propagation cycle and
    [App] is rendered again with its hook slots. *)
Definition click (F : Factory) (env : list nat) (b : AppButton)
    (view : Element * AppHooks) : M (Element * AppHooks) :=
  call (onClickOf b view.2);; flush;; App F env (Some view.2).

Fixpoint clicks (F : Factory) (env : list nat) (bs : list AppButton)
    (view : Element * AppHooks) : M (Element * AppHooks) :=
  match bs with
  | [] => mret view
  | b :: bs' => view' ← click F env b view; clicks F env bs' view'
  end.

(** The locale and the heading each button stands for. *)
Definition buttonLocale (b : AppButton) : Locale :=
  match b with
  | EnglishButton => "en"
  | FrenchButton => "fr"
  | SpanishButton => "es"
  end.

Definition buttonTitle (b : AppButton) : string :=
  match b with
  | EnglishButton => "Hello, everyone!"
  | FrenchButton => "Bonjour, tout le monde !"
  | SpanishButton => "¡Holà, à todos!"
  end.

(** main.tsx after translate.ts: the factory is made when the module is
    loaded, then the body of main.tsx runs. *)
Definition loadMain (rootElement : option nat)
    : M (Factory * (nat * (Element * AppHooks))) :=
  F ← translateModule;
  r ← main F rootElement;
  mret (F, r).

(** The hook slots [App] gets on mount when it reads the setter [d]. *)
Definition mountedHooks (d : Dispatch) : AppHooks :=
  {| onEnglishSwitchButtonClick := {| cb_setLocale := d; cb_locale := "en" |};
     onSpanishSwitchButtonClick := {| cb_setLocale := d; cb_locale := "es" |};
     onFrenchSwitchButtonClick := {| cb_setLocale := d; cb_locale := "fr" |} |}.

(** Several calls of one setter in a row. *)
Fixpoint dispatchAll (d : Dispatch) (acts : list SetStateAction) : M unit :=
  match acts with
  | [] => mret ()
  | a :: acts' => dispatch d a;; dispatchAll d acts'
  end.

(** * Properties *)

Lemma bind_run {A B : Type} (c : M A) (k : A → M B) m a m' :
  c m = (Normal a, m') → (c ≫= k) m = k a m'.
Proof. intros H. unfold mbind, M_bind. by rewrite H. Qed.

Lemma useLocale_run F env m :
  useLocale F env m =
    (Normal {| locale := currentLocale F env m;
               setLocale := setLocale (default (defaultValue (LocaleContext F))
                 (providedValue (fibers m) (ctx_id (LocaleContext F)) env)) |}, m).
Proof. reflexivity. Qed.

Example createTranslations_app :
  createTranslations "fr" emptyMachine = (Normal appFactory, set_contexts 1 emptyMachine).
Proof. reflexivity. Qed.

Example scenario_title_fr :
  callTranslate appFactory [0] 0 "title" appMachine = (Normal (JsString "Bonjour"), appMachine).
Proof. vm_compute. reflexivity. Qed.

Example scenario_title_en :
  fst ((s ← useLocale appFactory [0];
        dispatch (setLocale s) (NewState "en");; flush;;
        callTranslate appFactory [0] 0 "title") appMachine)
  = Normal (JsString "Hello").
Proof. vm_compute. reflexivity. Qed.

Example scenario_missing :
  callTranslate appFactory [0] 0 "missing" appMachine = (Normal (JsString ""), appMachine).
Proof. vm_compute. reflexivity. Qed.

Lemma readsLocale_current F env m L :
  readsLocale F env m L ↔ currentLocale F env m = L.
Proof.
  unfold readsLocale. rewrite useLocale_run. split.
  - intros [d Hd]. congruence.
  - intros <-. eexists. reflexivity.
Qed.

(** ** The lookup performed by [translate] *)

Lemma attempt_run {A B : Type} (c : M A) (k : Completion A → M B) m r m' :
  c m = (r, m') → (attempt c ≫= k) m = k r m'.
Proof. intros H. unfold attempt, mbind, M_bind. by rewrite H. Qed.

(** A call of the [translate] made in the machine [m], in a machine [m2]
    where the table reference designates [t]. *)
Lemma translate_binder_run F env translations m b m1 K m2 (t : Translations) :
  useTranslations F env translations m = (Normal b, m1) →
  heap m2 !! translations = Some t →
  translate b K m2 = (translateCompletion t K (currentLocale F env m), m2).
Proof.
  intros [= <- _] Ht. simpl. unfold mbind, M_bind, Get, translateCompletion, GetV.
  rewrite Ht. by destruct (ToBoolean (getFromTable t K)).
Qed.

Section Lookup.

(** A component of the factory [F] rendered under the ancestors [env],
    with [translations] a reference to the table [t]. *)
Variables (F : Factory) (env : list nat) (translations : nat).
Variables (m : Machine) (t : Translations).
Hypothesis Htable : heap m !! translations = Some t.

Lemma callTranslate_run key :
  callTranslate F env translations key m
  = (translateCompletion t key (currentLocale F env m), m).
Proof using Htable.
  unfold callTranslate, useTranslations, mbind, M_bind, mret, M_ret; simpl.
  unfold Get, translateCompletion, GetV. rewrite Htable.
  by destruct (ToBoolean (getFromTable t key)).
Qed.

(** C1. When the key [K] is in the table, its inner mapping has the entry
    [s] for the locale [L] and [L] is the current locale, [translate(K)]
    returns exactly that entry, [table[K][L]]. *)
Theorem translate_present_entry K (r : LocaleRecord) L s :
  t !! K = Some r →
  r !! L = Some s →
  readsLocale F env m L →
  callTranslate F env translations K m = (Normal (JsString s), m).
Proof using Htable.
  intros HK HL Hcur. apply readsLocale_current in Hcur.
  rewrite callTranslate_run. unfold translateCompletion, getFromTable.
  rewrite HK, Hcur. simpl. by rewrite HL.
Qed.

(** C2, amended. When the key [K] is in the table but its inner mapping
    has no entry for the current locale [L], [translate(K)] returns what
    the unguarded read [translation[L]] finds behind the inner mapping:
    [undefined] when [L] names no property of [Object.prototype], the
    inherited property otherwise; in no case the empty string. *)
Theorem translate_present_locale_missing K (r : LocaleRecord) L :
  t !! K = Some r →
  r !! L = None →
  readsLocale F env m L →
  callTranslate F env translations K m
  = (Normal (getInherited (JsIntrinsic "%Object.prototype%") L), m)
  ∧ (notInherited L → callTranslate F env translations K m = (Normal JsUndefined, m))
  ∧ callTranslate F env translations K m ≠ (Normal (JsString ""), m).
Proof using Htable.
  intros HK HL Hcur. apply readsLocale_current in Hcur.
  rewrite callTranslate_run. unfold translateCompletion, getFromTable.
  rewrite HK, Hcur. simpl. rewrite HL. split; [done|]. split.
  - unfold notInherited, getInherited. by intros ->.
  - unfold getInherited. by destruct (ObjectPrototype_own !! L) as [[b|]|].
Qed.


(** C10. Two evaluations of [translate] with the same table, key and
    locale, one after the other, end in the same completion (the same
    value, or the same exception), and the machine afterwards is the
    machine before: neither the heap that holds the table nor the provider
    fibers that hold the locale are modified. The same holds when the
    binder is made anew between the two calls. *)
Theorem translate_deterministic_pure K :
  ∃ c,
    (b ← useTranslations F env translations;
     c1 ← attempt (translate b K); c2 ← attempt (translate b K); mret (c1, c2)) m
    = (Normal (c, c), m)
    ∧ (c1 ← attempt (callTranslate F env translations K);
       c2 ← attempt (callTranslate F env translations K); mret (c1, c2)) m
      = (Normal (c, c), m).
Proof using Htable.
  exists (translateCompletion t K (currentLocale F env m)). split.
  - rewrite (bind_run (useTranslations F env translations) _ m _ m eq_refl).
    rewrite (attempt_run _ _ _ _ _
               (translate_binder_run F env translations m _ m K m t eq_refl Htable)).
    by rewrite (attempt_run _ _ _ _ _
                  (translate_binder_run F env translations m _ m K m t eq_refl Htable)).
  - rewrite (attempt_run _ _ _ _ _ (callTranslate_run K)).
    by rewrite (attempt_run _ _ _ _ _ (callTranslate_run K)).
Qed.

End Lookup.

Lemma translate_present_entry_witness :
  callTranslate appFactory [0] 0 "title" appMachine
  = (Normal (JsString "Bonjour"), appMachine).
Proof.
  apply (translate_present_entry appFactory [0] 0 appMachine titleTable)
    with (r := <["en" := "Hello"]> (<["fr" := "Bonjour"]> {[ "es" := "Hola" ]}))
         (L := "fr").
  - vm_compute. reflexivity.
  - vm_compute. reflexivity.
  - vm_compute. reflexivity.
  - exists (SetState 0). vm_compute. reflexivity.
Defined.

(** C2, as stated, fails: over the table [{title: {en: "Hello"}}] with the
    current locale ["toString"] (a locale when [Locale] is [string]), the
    inner mapping has no entry for the locale, and [translate("title")]
    returns the function inherited from [Object.prototype], not
    [undefined]. *)
Lemma translate_missing_locale_inherited :
  partialTable !! "title" = Some ({[ "en" := "Hello" ]} : gmap string string)
  ∧ ({[ "en" := "Hello" ]} : gmap string string) !! "toString" = None
  ∧ readsLocale appFactory [0] (withLocale "toString") "toString"
  ∧ callTranslate appFactory [0] 1 "title" (withLocale "toString")
    = (Normal (JsIntrinsic "%Object.prototype.toString%"), withLocale "toString")
  ∧ callTranslate appFactory [0] 1 "title" (withLocale "toString")
    ≠ (Normal JsUndefined, withLocale "toString").
Proof.
  split; [by vm_compute|]. split; [by vm_compute|].
  split; [exists (SetState 0); vm_compute; reflexivity|].
  assert (callTranslate appFactory [0] 1 "title" (withLocale "toString")
          = (Normal (JsIntrinsic "%Object.prototype.toString%"), withLocale "toString"))
    as H by (vm_compute; reflexivity).
  split; [exact H|]. rewrite H. discriminate.
Qed.

Lemma translate_present_locale_missing_witness :
  callTranslate appFactory [0] 1 "title" appMachine
  = (Normal (getInherited (JsIntrinsic "%Object.prototype%") "fr"), appMachine)
  ∧ (notInherited "fr" →
     callTranslate appFactory [0] 1 "title" appMachine = (Normal JsUndefined, appMachine))
  ∧ callTranslate appFactory [0] 1 "title" appMachine
    ≠ (Normal (JsString ""), appMachine).
Proof.
  apply (translate_present_locale_missing appFactory [0] 1 appMachine partialTable)
    with (r := {[ "en" := "Hello" ]}).
  - vm_compute. reflexivity.
  - vm_compute. reflexivity.
  - vm_compute. reflexivity.
  - exists (SetState 0). vm_compute. reflexivity.
Defined.



Example notInherited_title : notInherited "title" ∧ notInherited "fr".
Proof. split; vm_compute; reflexivity. Qed.

(** C4 at the key ["toString"], which is not in the table
    [{title: {en, fr, es}}]: the guard of [translate] sees the function
    inherited from [Object.prototype], lets it through, and the call
    returns [undefined], not the empty string. *)
Lemma translate_inherited_key_not_empty :
  titleTable !! "toString" = None
  ∧ callTranslate appFactory [0] 0 "toString" appMachine = (Normal JsUndefined, appMachine)
  ∧ callTranslate appFactory [0] 0 "toString" appMachine
    ≠ (Normal (JsString ""), appMachine).
Proof.
  split; [by vm_compute|].
  assert (callTranslate appFactory [0] 0 "toString" appMachine
          = (Normal JsUndefined, appMachine)) as H by (vm_compute; reflexivity).
  split; [exact H|]. rewrite H. discriminate.
Qed.

Example translate_inherited_constructor_name :
  callTranslate appFactory [0] 0 "constructor" (withLocale "name")
  = (Normal (JsString "Object"), withLocale "name").
Proof. vm_compute. reflexivity. Qed.

(** C8 at the key ["toString"], which is not in the table, with the
    current locale ["caller"]: the guard lets the inherited function
    through and the read of its [caller] raises a [TypeError]. *)
Lemma translate_inherited_key_throws :
  titleTable !! "toString" = None
  ∧ readsLocale appFactory [0] (withLocale "caller") "caller"
  ∧ callTranslate appFactory [0] 0 "toString" (withLocale "caller")
    = (Throw "TypeError", withLocale "caller").
Proof.
  split; [by vm_compute|].
  split; [exists (SetState 0); vm_compute; reflexivity|].
  vm_compute. reflexivity.
Qed.

Lemma translate_deterministic_pure_witness :
  ∃ c,
    (b ← useTranslations appFactory [0] 0;
     c1 ← attempt (translate b "title"); c2 ← attempt (translate b "title");
     mret (c1, c2)) appMachine
    = (Normal (c, c), appMachine)
    ∧ (c1 ← attempt (callTranslate appFactory [0] 0 "title");
       c2 ← attempt (callTranslate appFactory [0] 0 "title"); mret (c1, c2)) appMachine
      = (Normal (c, c), appMachine).
Proof.
  apply (translate_deterministic_pure appFactory [0] 0 appMachine titleTable).
  vm_compute. reflexivity.
Defined.

(** ** The provider fibers keep their invariant *)

Lemma LocaleProvider_mount_ok F id : fiber_ok id (LocaleProvider F id None).
Proof. by split. Qed.

Lemma LocaleProvider_update_ok F id f :
  fiber_ok id f → fiber_ok id (LocaleProvider F id (Some f)).
Proof.
  intros [Hd Hv]. split; [done|].
  unfold LocaleProvider, useMemo; simpl. case_decide as Heq; [|done].
  rewrite Hv. f_equal. congruence.
Qed.

Lemma rerender_ok id f : fiber_ok id f → fiber_ok id (rerender id f).
Proof.
  intros Hok. unfold rerender. destruct (queue f); [done|].
  by apply LocaleProvider_update_ok.
Qed.

Lemma rerender_provides id f : provides (rerender id f) = provides f.
Proof. unfold rerender. by destruct (queue f). Qed.

Lemma rerender_queue id f : queue (rerender id f) = [].
Proof. unfold rerender. by destruct (queue f) eqn:Hq. Qed.

Lemma rerender_settled id f : queue f = [] → rerender id f = f.
Proof. unfold rerender. by intros ->. Qed.

Lemma wf_empty : wf emptyMachine.
Proof. intros id f H. by destruct id. Qed.

Lemma wf_mount F m : wf m → wf (mount F m).2.
Proof.
  intros Hwf id f; simpl. intros [[_ H]|[-> <-]]%lookup_snoc_Some.
  - by apply Hwf.
  - apply LocaleProvider_mount_ok.
Qed.

Lemma wf_dispatch d a m : wf m → wf (dispatch d a m).2.
Proof.
  intros Hwf. destruct d as [|i]; [done|]. intros id f; simpl.
  destruct (decide (i = id)) as [->|Hne].
  - rewrite list_lookup_alter_eq. destruct (fibers m !! id) as [g|] eqn:Hg; [|done].
    intros [= <-]. by apply (Hwf id g).
  - rewrite list_lookup_alter_ne by done. apply Hwf.
Qed.

Lemma wf_flush m : wf m → wf (flush m).2.
Proof.
  intros Hwf id f; simpl. rewrite list_lookup_imap.
  destruct (fibers m !! id) as [g|] eqn:Hg; [|done].
  intros [= <-]. apply rerender_ok. by apply Hwf.
Qed.

Lemma settled_flush m : settled (flush m).2.
Proof.
  intros id f; simpl. rewrite list_lookup_imap.
  destruct (fibers m !! id) as [g|]; [|done].
  intros [= <-]. apply rerender_queue.
Qed.

Lemma flush_settled m : settled m → flush m = (Normal (), m).
Proof.
  intros Hs. unfold flush. f_equal. destruct m as [h c fs k]; unfold set_fibers; simpl.
  f_equal. apply list_eq. intros i. rewrite list_lookup_imap.
  destruct (fs !! i) as [g|] eqn:Hg; [|done]. simpl. f_equal.
  apply rerender_settled. by apply (Hs i g).
Qed.

Lemma cycles_settled n m : settled m → cycles n m = (Normal (), m).
Proof.
  intros Hs. induction n as [|n IH]; [done|].
  simpl. unfold mbind, M_bind. by rewrite (flush_settled m Hs).
Qed.

Lemma wf_createTranslations initial m : wf m → wf (createTranslations initial m).2.
Proof. done. Qed.

Lemma wf_alloc t m : wf m → wf (alloc t m).2.
Proof. done. Qed.

Create HintDb fibers.
#[local] Hint Resolve wf_empty wf_mount wf_dispatch wf_flush wf_alloc
  wf_createTranslations settled_flush : fibers.

Lemma wf_runOp op m : wf m → wf (runOp op m).
Proof. intros Hwf. destruct op; cbn [runOp]; auto with fibers. Qed.

(** Every machine a program can build satisfies the invariant. *)
Lemma reachable_wf m : reachable m → wf m.
Proof.
  intros [ops ->]. induction ops as [|op ops IH] using rev_ind.
  - apply wf_empty.
  - rewrite foldl_snoc. by apply wf_runOp.
Qed.

Lemma appMachine_reachable : reachable appMachine.
Proof.
  exists [OpCreate "fr"; OpAlloc titleTable; OpAlloc partialTable; OpMount appFactory].
  vm_compute. reflexivity.
Qed.

Lemma twoTrees_reachable : reachable twoTrees.
Proof.
  exists [OpCreate "fr"; OpCreate "en"; OpMount frenchFactory; OpMount englishFactory].
  vm_compute. reflexivity.
Qed.

(** [nearestProvider] only looks at the context each fiber provides. *)
Lemma nearestProvider_ext (fs fs' : list Fiber) c env :
  (∀ i, provides <$> fs !! i = provides <$> fs' !! i) →
  nearestProvider fs c env = nearestProvider fs' c env.
Proof.
  intros Hext. induction env as [|id env IH]; [done|]. simpl.
  specialize (Hext id). unfold provides in Hext.
  destruct (fs !! id) as [f|], (fs' !! id) as [f'|]; simplify_eq/=; try done.
  rewrite IH. by rewrite Hext.
Qed.

Lemma nearestProvider_Some fs c env id :
  nearestProvider fs c env = Some id → is_Some (fs !! id).
Proof.
  induction env as [|i env IH]; [done|]. simpl.
  destruct (fs !! i) as [f|] eqn:Hf; [|done].
  case_decide; [|done]. intros [= <-]. by exists f.
Qed.

Lemma provides_alter_enqueue a j (fs : list Fiber) i :
  provides <$> alter (enqueue a) j fs !! i = provides <$> fs !! i.
Proof.
  destruct (decide (j = i)) as [->|Hne].
  - rewrite list_lookup_alter_eq. by destruct (fs !! i).
  - by rewrite list_lookup_alter_ne.
Qed.

Lemma provides_imap_rerender (fs : list Fiber) i :
  provides <$> imap rerender fs !! i = provides <$> fs !! i.
Proof.
  rewrite list_lookup_imap. destruct (fs !! i) as [f|]; [|done].
  simpl. by rewrite rerender_provides.
Qed.

(** What a descendant of the provider fiber [id] reads. *)
Lemma useLocale_provider F env id f m :
  wf m →
  nearestProvider (fibers m) (ctx_id (LocaleContext F)) env = Some id →
  fibers m !! id = Some f →
  useLocale F env m
  = (Normal {| locale := memoizedState f; setLocale := SetState id |}, m).
Proof.
  intros Hwf Hnear Hf. rewrite useLocale_run.
  unfold currentLocale, providedValue. rewrite Hnear; simpl. rewrite Hf; simpl.
  destruct (Hwf id f Hf) as [_ ->]. reflexivity.
Qed.

(** What it reads after one propagation cycle. *)
Lemma useLocale_after_flush F env id f m :
  wf m →
  nearestProvider (fibers m) (ctx_id (LocaleContext F)) env = Some id →
  fibers m !! id = Some f →
  useLocale F env (flush m).2
  = (Normal {| locale := useState (initialLocale F) (Some f);
               setLocale := SetState id |}, (flush m).2).
Proof.
  intros Hwf Hnear Hf.
  rewrite (useLocale_provider F env id (rerender id f)).
  - do 3 f_equal. unfold rerender.
    destruct (queue f) eqn:Hq; simpl; by rewrite Hq.
  - by apply wf_flush.
  - simpl. rewrite <- Hnear. apply nearestProvider_ext.
    intros i. apply provides_imap_rerender.
  - simpl. rewrite list_lookup_imap, Hf. reflexivity.
Qed.

(** ** The accessor outside any provider *)

(** C5. [useLocale] called with no enclosing provider of its factory
    returns the factory's [initialLocale] and the no-op setter; calling
    that setter raises nothing and leaves the machine as it was, so
    whatever runs later, any accessor call included, behaves as if the
    setter had not been called. *)
Theorem useLocale_without_provider initial m0 F m1 env m a :
  createTranslations initial m0 = (Normal F, m1) →
  nearestProvider (fibers m) (ctx_id (LocaleContext F)) env = None →
  useLocale F env m = (Normal {| locale := initial; setLocale := Noop |}, m)
  ∧ (s ← useLocale F env; dispatch (setLocale s) a) m = (Normal (), m)
  ∧ ∀ (A : Type) (later : M A),
      (s ← useLocale F env; dispatch (setLocale s) a;; later) m = later m.
Proof.
  intros Hcreate Hnone.
  assert (useLocale F env m = (Normal {| locale := initial; setLocale := Noop |}, m))
    as Hread.
  { rewrite useLocale_run. unfold currentLocale, providedValue. rewrite Hnone.
    injection Hcreate as <- _. reflexivity. }
  split; [done|]. split.
  - by rewrite (bind_run _ _ _ _ _ Hread).
  - intros A later. by rewrite (bind_run _ _ _ _ _ Hread).
Qed.

Lemma useLocale_without_provider_witness :
  useLocale appFactory [] appMachine
  = (Normal {| locale := "fr"; setLocale := Noop |}, appMachine)
  ∧ (s ← useLocale appFactory []; dispatch (setLocale s) (NewState "en")) appMachine
    = (Normal (), appMachine)
  ∧ ∀ (A : Type) (later : M A),
      (s ← useLocale appFactory []; dispatch (setLocale s) (NewState "en");; later)
        appMachine = later appMachine.
Proof.
  apply (useLocale_without_provider "fr" emptyMachine appFactory
           (set_contexts 1 emptyMachine) [] appMachine (NewState "en")).
  - reflexivity.
  - reflexivity.
Defined.

(** ** Setting the locale *)

(** C6. Whatever the current locale is, calling the [setLocale] obtained
    under the provider fiber [id] with the value [L2] makes every read of
    [useLocale().locale] made after the next propagation cycle (and after
    any number [n] of further cycles) equal to [L2]; [L2] is an arbitrary
    string, stored as it is. *)
Theorem setLocale_propagates F env id m L2 n :
  wf m →
  nearestProvider (fibers m) (ctx_id (LocaleContext F)) env = Some id →
  ∃ m', (s ← useLocale F env;
         dispatch (setLocale s) (NewState L2);; flush;; cycles n;;
         useLocale F env) m
        = (Normal {| locale := L2; setLocale := SetState id |}, m').
Proof.
  intros Hwf Hnear.
  destruct (nearestProvider_Some _ _ _ _ Hnear) as [f Hf].
  rewrite (bind_run _ _ _ _ _ (useLocale_provider F env id f m Hwf Hnear Hf)).
  cbn [setLocale].
  set (m1 := (dispatch (SetState id) (NewState L2) m).2).
  assert (wf m1) as Hwf1 by (subst m1; auto with fibers).
  assert (nearestProvider (fibers m1) (ctx_id (LocaleContext F)) env = Some id) as Hnear1.
  { rewrite <- Hnear. apply nearestProvider_ext. intros i. apply provides_alter_enqueue. }
  assert (fibers m1 !! id = Some (enqueue (NewState L2) f)) as Hf1.
  { simpl. by rewrite list_lookup_alter_eq, Hf. }
  exists (flush m1).2.
  rewrite (bind_run _ (λ _, flush;; cycles n;; useLocale F env) m () m1) by done.
  rewrite (bind_run _ (λ _, cycles n;; useLocale F env) m1 () (flush m1).2) by done.
  rewrite (bind_run _ (λ _, useLocale F env) _ () (flush m1).2)
    by (apply cycles_settled, settled_flush).
  rewrite (useLocale_after_flush F env id _ m1 Hwf1 Hnear1 Hf1).
  do 3 f_equal. simpl. by rewrite foldl_snoc.
Qed.

Lemma setLocale_propagates_witness :
  ∃ m', (s ← useLocale appFactory [0];
         dispatch (setLocale s) (NewState "en");; flush;; cycles 2;;
         useLocale appFactory [0]) appMachine
        = (Normal {| locale := "en"; setLocale := SetState 0 |}, m').
Proof.
  apply (setLocale_propagates appFactory [0] 0 appMachine "en" 2).
  - apply reachable_wf, appMachine_reachable.
  - reflexivity.
Defined.

(** ** Two provider subtrees *)

(** C7. With two distinct provider fibers [a] and [b] (whatever the
    initial locales of their factories), calling the setter obtained in
    the subtree of [a] leaves the fiber [b] as it was, and does not change
    what the subtree of [b] reads: after the propagation cycle it reads
    what it would have read without the call and, when [b] has no update
    of its own pending, what it read before. *)
Theorem provider_subtrees_independent FA FB envA envB a b m act :
  wf m →
  nearestProvider (fibers m) (ctx_id (LocaleContext FA)) envA = Some a →
  nearestProvider (fibers m) (ctx_id (LocaleContext FB)) envB = Some b →
  a ≠ b →
  fibers ((s ← useLocale FA envA; dispatch (setLocale s) act) m).2 !! b = fibers m !! b
  ∧ ((s ← useLocale FA envA; dispatch (setLocale s) act;; flush;; useLocale FB envB) m).1
    = ((flush;; useLocale FB envB) m).1
  ∧ (∀ fb, fibers m !! b = Some fb → queue fb = [] →
     ((s ← useLocale FA envA; dispatch (setLocale s) act;; flush;; useLocale FB envB) m).1
     = (useLocale FB envB m).1).
Proof.
  intros Hwf HA HB Hne.
  destruct (nearestProvider_Some _ _ _ _ HA) as [fa Hfa].
  destruct (nearestProvider_Some _ _ _ _ HB) as [fb Hfb].
  rewrite !(bind_run _ _ _ _ _ (useLocale_provider FA envA a fa m Hwf HA Hfa)).
  cbn [setLocale].
  set (m1 := (dispatch (SetState a) act m).2).
  assert (wf m1) as Hwf1 by (subst m1; auto with fibers).
  assert (nearestProvider (fibers m1) (ctx_id (LocaleContext FB)) envB = Some b) as HB1.
  { rewrite <- HB. apply nearestProvider_ext. intros i. apply provides_alter_enqueue. }
  assert (fibers m1 !! b = Some fb) as Hfb1.
  { simpl. by rewrite list_lookup_alter_ne. }
  split; [by rewrite Hfb1|].
  rewrite (bind_run _ (λ _, flush;; useLocale FB envB) m () m1) by done.
  rewrite (bind_run _ (λ _, useLocale FB envB) m1 () (flush m1).2) by done.
  rewrite (bind_run _ (λ _, useLocale FB envB) m () (flush m).2) by done.
  rewrite (useLocale_after_flush FB envB b fb m1 Hwf1 HB1 Hfb1).
  rewrite (useLocale_after_flush FB envB b fb m Hwf HB Hfb).
  split; [done|].
  intros fb' Hfb' Hq. assert (fb' = fb) as -> by congruence.
  rewrite (useLocale_provider FB envB b fb m Hwf HB Hfb).
  simpl. by rewrite Hq.
Qed.

Lemma provider_subtrees_independent_witness :
  fibers ((s ← useLocale frenchFactory [0]; dispatch (setLocale s) (NewState "es"))
            twoTrees).2 !! 1
  = fibers twoTrees !! 1
  ∧ ((s ← useLocale frenchFactory [0]; dispatch (setLocale s) (NewState "es");; flush;;
      useLocale englishFactory [1]) twoTrees).1
    = ((flush;; useLocale englishFactory [1]) twoTrees).1
  ∧ (∀ fb, fibers twoTrees !! 1 = Some fb → queue fb = [] →
     ((s ← useLocale frenchFactory [0]; dispatch (setLocale s) (NewState "es");; flush;;
       useLocale englishFactory [1]) twoTrees).1
     = (useLocale englishFactory [1] twoTrees).1).
Proof.
  apply (provider_subtrees_independent frenchFactory englishFactory [0] [1] 0 1
           twoTrees (NewState "es")).
  - apply reachable_wf, twoTrees_reachable.
  - reflexivity.
  - reflexivity.
  - lia.
Defined.

Example twoTrees_read_before :
  (useLocale englishFactory [1] twoTrees).1
  = Normal {| locale := "en"; setLocale := SetState 1 |}.
Proof. reflexivity. Qed.

Example twoTrees_read_after :
  ((s ← useLocale frenchFactory [0]; dispatch (setLocale s) (NewState "es");; flush;;
    a ← useLocale frenchFactory [0]; b ← useLocale englishFactory [1];
    mret (locale a, locale b)) twoTrees).1
  = Normal ("es", "en").
Proof. reflexivity. Qed.

(** ** The two variants *)

(** C9. The variant whose [translate] takes the language as an argument
    and the variant that reads it from the accessor agree: for a table
    reference, a key [K] and the current locale [L], [translate(K, L)] of
    the first does what [translate(K)] of the second does. *)
Theorem translate_variants_agree F env translations m K L :
  readsLocale F env m L →
  (b ← Part000.useTranslations F translations; Part000.translate b K L) m
  = callTranslate F env translations K m.
Proof.
  intros Hcur. apply readsLocale_current in Hcur. subst L.
  unfold callTranslate, Part000.useTranslations, useTranslations.
  unfold mbind, M_bind, mret, M_ret; simpl. reflexivity.
Qed.

Lemma translate_variants_agree_witness :
  (b ← Part000.useTranslations appFactory 0; Part000.translate b "title" "fr") appMachine
  = callTranslate appFactory [0] 0 "title" appMachine.
Proof.
  apply (translate_variants_agree appFactory [0] 0 appMachine "title" "fr").
  exists (SetState 0). vm_compute. reflexivity.
Defined.

(** * Further properties of the library *)

(** ** The variant with an explicit language *)

Lemma getInherited_not_empty proto P :
  proto ≠ JsString "" → getInherited proto P ≠ JsString "".
Proof. intros Hp. unfold getInherited. by destruct (ObjectPrototype_own !! P) as [[b|]|]. Qed.

(** X1. [translate(K, L)] of the variant with an explicit language looks
    [L] up whatever the provider's locale is and leaves the machine as it
    was: the entry of [L] when [K] has one; the empty string when [K] is
    neither in the table nor the name of a property of [Object.prototype];
    [undefined] when [K] is in the table without an entry for [L] and [L]
    names no property of [Object.prototype]. *)
Theorem Part000_translate_lookup F translations m (t : Translations) K L :
  heap m !! translations = Some t →
  (∀ (r : LocaleRecord) s, t !! K = Some r → r !! L = Some s →
     (b ← Part000.useTranslations F translations; Part000.translate b K L) m
     = (Normal (JsString s), m))
  ∧ (t !! K = None → notInherited K →
     (b ← Part000.useTranslations F translations; Part000.translate b K L) m
     = (Normal (JsString ""), m))
  ∧ (∀ r : LocaleRecord, t !! K = Some r → r !! L = None → notInherited L →
     (b ← Part000.useTranslations F translations; Part000.translate b K L) m
     = (Normal JsUndefined, m)).
Proof.
  intros Ht.
  unfold Part000.useTranslations, mbind, M_bind, mret, M_ret, Get, GetV; simpl.
  rewrite Ht. unfold getFromTable, notInherited. split; [|split].
  - intros r s -> Hs. simpl. by rewrite Hs.
  - by intros -> ->.
  - intros r -> Hr HL. simpl. rewrite Hr. unfold getInherited. by rewrite HL.
Qed.

Lemma Part000_translate_lookup_witness :
  (∀ (r : LocaleRecord) s, titleTable !! "title" = Some r → r !! "es" = Some s →
     (b ← Part000.useTranslations appFactory 0; Part000.translate b "title" "es") appMachine
     = (Normal (JsString s), appMachine))
  ∧ (titleTable !! "title" = None → notInherited "title" →
     (b ← Part000.useTranslations appFactory 0; Part000.translate b "title" "es") appMachine
     = (Normal (JsString ""), appMachine))
  ∧ (∀ r : LocaleRecord, titleTable !! "title" = Some r → r !! "es" = None →
     notInherited "es" →
     (b ← Part000.useTranslations appFactory 0; Part000.translate b "title" "es") appMachine
     = (Normal JsUndefined, appMachine)).
Proof.
  apply (Part000_translate_lookup appFactory 0 appMachine titleTable "title" "es").
  vm_compute. reflexivity.
Defined.

Example Part000_other_locale :
  ((b ← Part000.useTranslations appFactory 0; Part000.translate b "title" "es") appMachine).1
  = Normal (JsString "Hola").
Proof. vm_compute. reflexivity. Qed.

(** ** The empty string *)

(** X2. For a key that names no property of [Object.prototype],
    [translate(K)] returns the empty string in exactly two cases: the key
    is absent from the table, or the entry of the current locale is itself
    the empty string; the caller cannot tell them apart. *)
Theorem translate_empty_string_iff F env translations m (t : Translations) K :
  heap m !! translations = Some t →
  notInherited K →
  (callTranslate F env translations K m).1 = Normal (JsString "")
  ↔ t !! K = None
    ∨ ∃ r : LocaleRecord, t !! K = Some r ∧ r !! currentLocale F env m = Some "".
Proof.
  intros Ht HnK. rewrite (callTranslate_run _ _ _ _ _ Ht).
  unfold translateCompletion, getFromTable, notInherited in *. rewrite HnK. simpl.
  destruct (t !! K) as [r|] eqn:HK; simpl.
  - destruct (r !! currentLocale F env m) as [s|] eqn:HL.
    + split.
      * intros [= ->]. right. by exists r.
      * intros [|(r' & Hr & Hs)]; [done|]. congruence.
    + split.
      * intros [= H]. by apply getInherited_not_empty in H.
      * intros [|(r' & Hr & Hs)]; [done|]. congruence.
  - split; [by left|done].
Qed.

Lemma translate_empty_string_iff_witness :
  (callTranslate appFactory [0] 0 "missing" appMachine).1 = Normal (JsString "")
  ↔ titleTable !! "missing" = None
    ∨ ∃ r : LocaleRecord,
        titleTable !! "missing" = Some r
        ∧ r !! currentLocale appFactory [0] appMachine = Some "".
Proof.
  apply (translate_empty_string_iff appFactory [0] 0 appMachine titleTable "missing").
  - vm_compute. reflexivity.
  - vm_compute. reflexivity.
Defined.

(** ** Keys for which [translate] completes *)

(** X16. [translate(K)] of either variant completes normally, for every
    locale, whenever [K] is a key of the table or names no property of
    [Object.prototype]: the inner read is then made on an inner mapping,
    where nothing throws, or not made at all. *)
Theorem translate_completes F env translations m (t : Translations) K L :
  heap m !! translations = Some t →
  is_Some (t !! K) ∨ notInherited K →
  terminates (callTranslate F env translations K) m
  ∧ terminates (b ← Part000.useTranslations F translations; Part000.translate b K L) m.
Proof.
  intros Ht HK. unfold terminates.
  rewrite (callTranslate_run _ _ _ _ _ Ht).
  unfold Part000.useTranslations, mbind, M_bind, mret, M_ret, Get, GetV; simpl.
  rewrite Ht. unfold translateCompletion, getFromTable, notInherited in *.
  destruct (t !! K) as [r|] eqn:Hr; simpl.
  - split.
    + destruct (r !! currentLocale F env m); by eexists _, _.
    + destruct (r !! L); by eexists _, _.
  - destruct HK as [[? HK]| ->]; [done|]. split; by eexists _, _.
Qed.

Lemma translate_completes_witness :
  terminates (callTranslate appFactory [0] 0 "missing") (withLocale "caller")
  ∧ terminates (b ← Part000.useTranslations appFactory 0;
                Part000.translate b "missing" "caller") (withLocale "caller").
Proof.
  apply (translate_completes appFactory [0] 0 (withLocale "caller") titleTable
           "missing" "caller").
  - vm_compute. reflexivity.
  - right. vm_compute. reflexivity.
Defined.

(** ** Mounting a provider *)

Lemma useLocale_mounted F env m :
  useLocale F (length (fibers m) :: env) (mount F m).2
  = (Normal {| locale := initialLocale F; setLocale := SetState (length (fibers m)) |},
     (mount F m).2).
Proof.
  unfold useLocale, useContext, mbind, M_bind, mret, M_ret; simpl.
  unfold providedValue; simpl.
  rewrite list_lookup_middle by done; simpl.
  rewrite decide_True by done; simpl.
  rewrite list_lookup_middle by done. reflexivity.
Qed.

(** X3. A component directly under a provider that has just been mounted
    reads the factory's [initialLocale] and the setter of the new fiber,
    whatever providers enclose the new one; the fibers mounted before are
    left as they were. *)
Theorem mount_then_read F env m :
  (id ← mount F; s ← useLocale F (id :: env); mret (id, s)) m
  = (Normal (length (fibers m),
             {| locale := initialLocale F; setLocale := SetState (length (fibers m)) |}),
     (mount F m).2)
  ∧ ∀ i f, fibers m !! i = Some f → fibers (mount F m).2 !! i = Some f.
Proof.
  split.
  - rewrite (bind_run (mount F) _ m _ _ eq_refl).
    by rewrite (bind_run _ _ _ _ _ (useLocale_mounted F env m)).
  - intros i f Hf; simpl. rewrite lookup_app_l; [done|]. by eapply lookup_lt_Some.
Qed.

(** ** Two factories *)

(** X4. Two calls of [createTranslations] make two contexts that do not
    see each other: under a provider of the first factory, the accessor of
    the first reads the provider, and the accessor of the second gets its
    own [initialLocale] and the no-op setter. *)
Theorem factories_do_not_interoperate l1 l2 m :
  ((F1 ← createTranslations l1; F2 ← createTranslations l2;
    id ← mount F1;
    s1 ← useLocale F1 [id]; s2 ← useLocale F2 [id];
    mret (s1, s2)) m).1
  = Normal ({| locale := l1; setLocale := SetState (length (fibers m)) |},
            {| locale := l2; setLocale := Noop |}).
Proof.
  unfold mbind, M_bind, mret, M_ret, createTranslations, createContext, mount,
    useLocale, useContext; simpl.
  unfold providedValue; simpl.
  rewrite !list_lookup_middle by done; simpl.
  rewrite decide_True by done. rewrite decide_False by lia. simpl.
  rewrite list_lookup_middle by done. reflexivity.
Qed.

(** ** The setter through the life of a provider *)

Lemma nearestProvider_ext_env (fs fs' : list Fiber) c env :
  (∀ i, i ∈ env → provides <$> fs !! i = provides <$> fs' !! i) →
  nearestProvider fs c env = nearestProvider fs' c env.
Proof.
  induction env as [|id env IH]; [done|]. intros Hext. simpl.
  pose proof (Hext id ltac:(left)) as Hid. unfold provides in Hid.
  rewrite IH by (intros i Hi; apply Hext; by right).
  destruct (fs !! id) as [f|], (fs' !! id) as [f'|]; simplify_eq/=; try done.
  by rewrite Hid.
Qed.

Lemma runOp_length op m : length (fibers m) ≤ length (fibers (runOp op m)).
Proof.
  destruct op as [| | [|j] ? | |]; simpl; try lia.
  - rewrite length_app; simpl; lia.
  - by rewrite length_alter.
  - by rewrite length_imap.
Qed.

Lemma runOp_provides op m i :
  i < length (fibers m) →
  provides <$> fibers (runOp op m) !! i = provides <$> fibers m !! i.
Proof.
  intros Hi. destruct op as [| | [|j] ? | |]; simpl; try done.
  - by rewrite lookup_app_l.
  - apply provides_alter_enqueue.
  - apply provides_imap_rerender.
Qed.

Lemma setter_stable_run F env id ops : ∀ m,
  wf m →
  Forall (λ i, i < length (fibers m)) env →
  nearestProvider (fibers m) (ctx_id (LocaleContext F)) env = Some id →
  let m' := foldl (λ m op, runOp op m) m ops in
  wf m' ∧ nearestProvider (fibers m') (ctx_id (LocaleContext F)) env = Some id.
Proof.
  induction ops as [|op ops IH]; intros m Hwf Henv Hnear; [done|].
  simpl. apply IH.
  - by apply wf_runOp.
  - eapply Forall_impl; [exact Henv|]. simpl. intros i Hi.
    pose proof (runOp_length op m). lia.
  - rewrite <- Hnear. apply nearestProvider_ext_env. intros i Hi.
    apply runOp_provides. by eapply (proj1 (Forall_forall _ _) Henv).
Qed.

(** X5. The setter a component reads from [useLocale] under a provider is
    the same through the whole life of that provider: whatever factories
    are made, providers mounted, setters called and propagation cycles run
    in between, the accessor hands back the setter of the same fiber. *)
Theorem setter_stable F env id m ops :
  wf m →
  Forall (λ i, i < length (fibers m)) env →
  nearestProvider (fibers m) (ctx_id (LocaleContext F)) env = Some id →
  ∃ L L',
    useLocale F env m = (Normal {| locale := L; setLocale := SetState id |}, m)
    ∧ useLocale F env (foldl (λ m op, runOp op m) m ops)
      = (Normal {| locale := L'; setLocale := SetState id |},
         foldl (λ m op, runOp op m) m ops).
Proof.
  intros Hwf Henv Hnear.
  destruct (setter_stable_run F env id ops m Hwf Henv Hnear) as [Hwf' Hnear'].
  destruct (nearestProvider_Some _ _ _ _ Hnear) as [f Hf].
  destruct (nearestProvider_Some _ _ _ _ Hnear') as [f' Hf'].
  exists (memoizedState f), (memoizedState f'). split; by apply useLocale_provider.
Qed.

Lemma setter_stable_witness :
  ∃ L L',
    useLocale appFactory [0] appMachine
    = (Normal {| locale := L; setLocale := SetState 0 |}, appMachine)
    ∧ useLocale appFactory [0]
        (foldl (λ m op, runOp op m) appMachine
           [OpDispatch (SetState 0) (NewState "en"); OpFlush; OpMount englishFactory])
      = (Normal {| locale := L'; setLocale := SetState 0 |},
         foldl (λ m op, runOp op m) appMachine
           [OpDispatch (SetState 0) (NewState "en"); OpFlush; OpMount englishFactory]).
Proof.
  apply (setter_stable appFactory [0] 0 appMachine
           [OpDispatch (SetState 0) (NewState "en"); OpFlush; OpMount englishFactory]).
  - apply reachable_wf, appMachine_reachable.
  - repeat constructor.
  - reflexivity.
Defined.

(** ** Binders and renders *)

(** X6. A [translate] keeps the locale of the render that made it: after
    [setLocale(L2)] and a propagation cycle, the [translate] made before
    still answers for the old locale, and only the one made by calling
    [useTranslations] again answers for [L2] (answers being completions:
    a value, or the exception of the read). *)
Theorem translate_keeps_render_locale F env id m translations (t : Translations) K L2 :
  wf m →
  nearestProvider (fibers m) (ctx_id (LocaleContext F)) env = Some id →
  heap m !! translations = Some t →
  ((old ← useTranslations F env translations;
    s ← useLocale F env;
    dispatch (setLocale s) (NewState L2);; flush;;
    v_old ← attempt (translate old K);
    new ← useTranslations F env translations;
    v_new ← attempt (translate new K);
    mret (v_old, v_new)) m).1
  = Normal (translateCompletion t K (currentLocale F env m), translateCompletion t K L2).
Proof.
  intros Hwf Hnear Ht.
  destruct (nearestProvider_Some _ _ _ _ Hnear) as [f Hf].
  rewrite (bind_run (useTranslations F env translations) _ m _ m eq_refl).
  rewrite (bind_run _ _ _ _ _ (useLocale_provider F env id f m Hwf Hnear Hf)).
  cbn [setLocale].
  set (m1 := (dispatch (SetState id) (NewState L2) m).2).
  assert (wf m1) as Hwf1 by (subst m1; auto with fibers).
  assert (nearestProvider (fibers m1) (ctx_id (LocaleContext F)) env = Some id) as Hnear1.
  { rewrite <- Hnear. apply nearestProvider_ext. intros i. apply provides_alter_enqueue. }
  assert (fibers m1 !! id = Some (enqueue (NewState L2) f)) as Hf1.
  { simpl. by rewrite list_lookup_alter_eq, Hf. }
  rewrite (bind_run (dispatch (SetState id) (NewState L2)) _ m () m1 eq_refl).
  rewrite (bind_run flush _ m1 () (flush m1).2 eq_refl).
  assert (heap (flush m1).2 !! translations = Some t) as Ht2 by done.
  rewrite (attempt_run _ _ _ _ _
             (translate_binder_run F env translations m _ m K (flush m1).2 t eq_refl Ht2)).
  rewrite (bind_run (useTranslations F env translations) _ (flush m1).2 _ _ eq_refl).
  rewrite (attempt_run _ _ _ _ _
             (translate_binder_run F env translations (flush m1).2 _ _ K (flush m1).2 t
                eq_refl Ht2)).
  assert (currentLocale F env (flush m1).2 = L2) as ->.
  { apply readsLocale_current. exists (SetState id).
    rewrite (useLocale_after_flush F env id _ m1 Hwf1 Hnear1 Hf1).
    simpl. by rewrite foldl_snoc. }
  reflexivity.
Qed.

Lemma translate_keeps_render_locale_witness :
  ((old ← useTranslations appFactory [0] 0;
    s ← useLocale appFactory [0];
    dispatch (setLocale s) (NewState "en");; flush;;
    v_old ← attempt (translate old "title");
    new ← useTranslations appFactory [0] 0;
    v_new ← attempt (translate new "title");
    mret (v_old, v_new)) appMachine).1
  = Normal (translateCompletion titleTable "title" (currentLocale appFactory [0] appMachine),
            translateCompletion titleTable "title" "en").
Proof.
  apply (translate_keeps_render_locale appFactory [0] 0 appMachine 0 titleTable "title" "en").
  - apply reachable_wf, appMachine_reachable.
  - reflexivity.
  - vm_compute. reflexivity.
Defined.

Example translate_keeps_render_locale_app :
  (translateCompletion titleTable "title" (currentLocale appFactory [0] appMachine),
   translateCompletion titleTable "title" "en")
  = (Normal (JsString "Bonjour"), Normal (JsString "Hello")).
Proof. vm_compute. reflexivity. Qed.

(** ** Several updates in one cycle *)

Lemma dispatchAll_run id acts : ∀ m f,
  wf m →
  fibers m !! id = Some f →
  ∃ m' f',
    dispatchAll (SetState id) acts m = (Normal (), m')
    ∧ wf m'
    ∧ heap m' = heap m
    ∧ (∀ i, provides <$> fibers m' !! i = provides <$> fibers m !! i)
    ∧ (∀ j, j ≠ id → fibers m' !! j = fibers m !! j)
    ∧ fibers m' !! id = Some f'
    ∧ memoizedState f' = memoizedState f
    ∧ queue f' = queue f ++ acts.
Proof.
  induction acts as [|a acts IH]; intros m f Hwf Hf.
  - exists m, f. by rewrite app_nil_r.
  - set (m1 := (dispatch (SetState id) a m).2).
    assert (fibers m1 !! id = Some (enqueue a f)) as Hf1.
    { simpl. by rewrite list_lookup_alter_eq, Hf. }
    destruct (IH m1 (enqueue a f)) as (m' & f' & Hrun & Hwf' & Hh & Hp & Hne & Hf' & Hs & Hq);
      [subst m1; auto with fibers | done |].
    exists m', f'. split; [|split; [done|split; [done|split; [|split; [|split; [done|split]]]]]].
    + simpl. by rewrite (bind_run (dispatch (SetState id) a) _ m () m1 eq_refl).
    + intros i. rewrite Hp. apply provides_alter_enqueue.
    + intros j Hj. rewrite (Hne j Hj). simpl. by rewrite list_lookup_alter_ne.
    + done.
    + rewrite Hq. simpl. by rewrite <- app_assoc.
Qed.

(** X7. Setter calls made before a propagation cycle are applied in the
    order of the calls, each to the result of the one before: after the
    cycle the accessor reads the pending state folded over the actions, so
    the last plain value wins and an updater function sees what the calls
    before it left. *)
Theorem setLocale_calls_apply_in_order F env id f m acts :
  wf m →
  nearestProvider (fibers m) (ctx_id (LocaleContext F)) env = Some id →
  fibers m !! id = Some f →
  ((s ← useLocale F env; dispatchAll (setLocale s) acts;; flush;; useLocale F env) m).1
  = Normal {| locale := foldl applyAction (foldl applyAction (memoizedState f) (queue f)) acts;
              setLocale := SetState id |}.
Proof.
  intros Hwf Hnear Hf.
  rewrite (bind_run _ _ _ _ _ (useLocale_provider F env id f m Hwf Hnear Hf)).
  cbn [setLocale].
  destruct (dispatchAll_run id acts m f Hwf Hf)
    as (m' & f' & Hrun & Hwf' & _ & Hp & _ & Hf' & Hs & Hq).
  rewrite (bind_run _ _ _ _ _ Hrun).
  rewrite (bind_run flush _ m' () (flush m').2 eq_refl).
  assert (nearestProvider (fibers m') (ctx_id (LocaleContext F)) env = Some id) as Hnear'.
  { rewrite <- Hnear. by apply nearestProvider_ext. }
  rewrite (useLocale_after_flush F env id f' m' Hwf' Hnear' Hf').
  simpl. by rewrite Hs, Hq, foldl_app.
Qed.

Lemma setLocale_calls_apply_in_order_witness :
  ((s ← useLocale appFactory [0];
    dispatchAll (setLocale s) [NewState "en"; Updater (λ prev, prev +:+ "-GB"); NewState "es"];;
    flush;; useLocale appFactory [0]) appMachine).1
  = Normal {| locale := foldl applyAction
                (foldl applyAction (memoizedState (LocaleProvider appFactory 0 None))
                   (queue (LocaleProvider appFactory 0 None)))
                [NewState "en"; Updater (λ prev, prev +:+ "-GB"); NewState "es"];
              setLocale := SetState 0 |}.
Proof.
  apply (setLocale_calls_apply_in_order appFactory [0] 0 (LocaleProvider appFactory 0 None)
           appMachine [NewState "en"; Updater (λ prev, prev +:+ "-GB"); NewState "es"]).
  - apply reachable_wf, appMachine_reachable.
  - reflexivity.
  - reflexivity.
Defined.

Example updater_sees_previous_call :
  ((s ← useLocale appFactory [0];
    dispatchAll (setLocale s) [NewState "en"; Updater (λ prev, prev +:+ "-GB")];;
    flush;; useLocale appFactory [0]) appMachine).1
  = Normal {| locale := "en-GB"; setLocale := SetState 0 |}.
Proof. vm_compute. reflexivity. Qed.

(** X8. Calling the setter does not by itself change what any accessor
    reads: until the next propagation cycle a component under the same
    provider still reads the locale it read before the calls. *)
Theorem setLocale_not_visible_before_cycle F env id m acts :
  wf m →
  nearestProvider (fibers m) (ctx_id (LocaleContext F)) env = Some id →
  ((s ← useLocale F env; dispatchAll (setLocale s) acts;; useLocale F env) m).1
  = (useLocale F env m).1.
Proof.
  intros Hwf Hnear.
  destruct (nearestProvider_Some _ _ _ _ Hnear) as [f Hf].
  rewrite (bind_run _ _ _ _ _ (useLocale_provider F env id f m Hwf Hnear Hf)).
  cbn [setLocale].
  destruct (dispatchAll_run id acts m f Hwf Hf)
    as (m' & f' & Hrun & Hwf' & _ & Hp & _ & Hf' & Hs & Hq).
  rewrite (bind_run _ _ _ _ _ Hrun).
  assert (nearestProvider (fibers m') (ctx_id (LocaleContext F)) env = Some id) as Hnear'.
  { rewrite <- Hnear. by apply nearestProvider_ext. }
  rewrite (useLocale_provider F env id f' m' Hwf' Hnear' Hf').
  rewrite (useLocale_provider F env id f m Hwf Hnear Hf).
  simpl. by rewrite Hs.
Qed.

Lemma setLocale_not_visible_before_cycle_witness :
  ((s ← useLocale appFactory [0]; dispatchAll (setLocale s) [NewState "en"];;
    useLocale appFactory [0]) appMachine).1
  = (useLocale appFactory [0] appMachine).1.
Proof.
  apply (setLocale_not_visible_before_cycle appFactory [0] 0 appMachine [NewState "en"]).
  - apply reachable_wf, appMachine_reachable.
  - reflexivity.
Defined.

(** * The demo application *)

Lemma alloc_lookup (t : Translations) m :
  heap (alloc t m).2 !! (fresh (dom (heap m))) = Some t.
Proof. simpl. apply lookup_insert_eq. Qed.

Lemma alloc_fresh (t : Translations) m : heap m !! (fresh (dom (heap m))) = None.
Proof. apply not_elem_of_dom, is_fresh. Qed.

(** The key ["title"] is an own key of the table of [App]: the read of
    the heading completes for every locale. *)
Lemma appTable_completion l :
  translateCompletion appTable "title" l = Normal (lookupText appTable "title" l).
Proof.
  unfold lookupText, translateCompletion.
  change (getFromTable appTable "title") with
    (TvRecord (<["fr" := "Bonjour, tout le monde !"]>
                 (<["en" := "Hello, everyone!"]> ({[ "es" := "¡Holà, à todos!" ]}
                    : gmap string string)))).
  cbn [ToBoolean negb getV]. by destruct (_ !! l).
Qed.

(** One render of [App], in terms of what its accessor reads. *)
Lemma App_run F env hooks m s :
  useLocale F env m = (Normal s, m) →
  App F env hooks m
  = (Normal (AppJsx (locale s) (default (mountedHooks (setLocale s)) hooks)
               (lookupText appTable "title" (locale s)),
             default (mountedHooks (setLocale s)) hooks),
     (alloc appTable m).2).
Proof.
  intros Hs. unfold App. rewrite (bind_run _ _ _ _ _ Hs).
  rewrite (bind_run (alloc appTable) _ m _ _ eq_refl).
  rewrite (bind_run (useTranslations F env _) _ (alloc appTable m).2 _ _ eq_refl).
  pose proof (translate_binder_run F env _ (alloc appTable m).2 _ _ "title"
                (alloc appTable m).2 appTable eq_refl (alloc_lookup appTable m)) as Hcall.
  rewrite appTable_completion in Hcall.
  rewrite (bind_run _ _ _ _ _ Hcall).
  assert (currentLocale F env (alloc appTable m).2 = locale s) as ->.
  { rewrite useLocale_run in Hs. injection Hs as <-. reflexivity. }
  unfold mret, M_ret. by destruct hooks as [[? ? ?]|].
Qed.

Lemma appTable_lookup (b : AppButton) :
  lookupText appTable "title" (buttonLocale b) = JsString (buttonTitle b).
Proof. destruct b; vm_compute; reflexivity. Qed.

(** X9. Under a provider whose locale is one of the three of app.tsx,
    [App] shows that locale and the heading of that locale, with the three
    buttons bound to the provider's setter; under a provider whose locale
    is none of the three and names no property of [Object.prototype], the
    heading is [undefined], that is, empty. *)
Theorem App_renders_current_locale F env id f m :
  wf m →
  nearestProvider (fibers m) (ctx_id (LocaleContext F)) env = Some id →
  fibers m !! id = Some f →
  (∀ b, memoizedState f = buttonLocale b →
     (App F env None m).1
     = Normal (AppJsx (buttonLocale b) (mountedHooks (SetState id))
                 (JsString (buttonTitle b)),
               mountedHooks (SetState id)))
  ∧ ((∀ b, memoizedState f ≠ buttonLocale b) → notInherited (memoizedState f) →
     (App F env None m).1
     = Normal (AppJsx (memoizedState f) (mountedHooks (SetState id)) JsUndefined,
               mountedHooks (SetState id))).
Proof.
  intros Hwf Hnear Hf.
  rewrite (App_run F env None m _ (useLocale_provider F env id f m Hwf Hnear Hf)).
  simpl. split.
  - intros b ->. by rewrite appTable_lookup.
  - intros Hno Hni. do 3 f_equal.
    unfold lookupText, translateCompletion.
    change (getFromTable appTable "title") with
      (TvRecord (<["fr" := "Bonjour, tout le monde !"]>
                   (<["en" := "Hello, everyone!"]> ({[ "es" := "¡Holà, à todos!" ]}
                      : gmap string string)))).
    cbn [ToBoolean negb getV].
    rewrite !lookup_insert_ne, lookup_singleton_ne.
    + unfold getInherited. by rewrite Hni.
    + intros E. by apply (Hno SpanishButton).
    + intros E. by apply (Hno EnglishButton).
    + intros E. by apply (Hno FrenchButton).
Qed.

Lemma App_renders_current_locale_witness :
  (∀ b, memoizedState (LocaleProvider appFactory 0 None) = buttonLocale b →
     (App appFactory [0] None appMachine).1
     = Normal (AppJsx (buttonLocale b) (mountedHooks (SetState 0))
                 (JsString (buttonTitle b)),
               mountedHooks (SetState 0)))
  ∧ ((∀ b, memoizedState (LocaleProvider appFactory 0 None) ≠ buttonLocale b) →
     notInherited (memoizedState (LocaleProvider appFactory 0 None)) →
     (App appFactory [0] None appMachine).1
     = Normal (AppJsx (memoizedState (LocaleProvider appFactory 0 None))
                 (mountedHooks (SetState 0)) JsUndefined,
               mountedHooks (SetState 0))).
Proof.
  apply (App_renders_current_locale appFactory [0] 0 (LocaleProvider appFactory 0 None)
           appMachine).
  - apply reachable_wf, appMachine_reachable.
  - reflexivity.
  - reflexivity.
Defined.

Lemma call_onClickOf b d :
  call (onClickOf b (mountedHooks d)) = dispatch d (NewState (buttonLocale b)).
Proof. by destruct b. Qed.

(** One click under the provider fiber [id], with the invariants it keeps. *)
Lemma click_run F env id m b tree :
  wf m →
  nearestProvider (fibers m) (ctx_id (LocaleContext F)) env = Some id →
  ∃ m',
    click F env b (tree, mountedHooks (SetState id)) m
    = (Normal (AppJsx (buttonLocale b) (mountedHooks (SetState id))
                 (JsString (buttonTitle b)),
               mountedHooks (SetState id)), m')
    ∧ wf m'
    ∧ nearestProvider (fibers m') (ctx_id (LocaleContext F)) env = Some id.
Proof.
  intros Hwf Hnear.
  destruct (nearestProvider_Some _ _ _ _ Hnear) as [f Hf].
  unfold click. cbn [snd]. rewrite call_onClickOf.
  set (m1 := (dispatch (SetState id) (NewState (buttonLocale b)) m).2).
  assert (wf m1) as Hwf1 by (subst m1; auto with fibers).
  assert (nearestProvider (fibers m1) (ctx_id (LocaleContext F)) env = Some id) as Hnear1.
  { rewrite <- Hnear. apply nearestProvider_ext. intros i. apply provides_alter_enqueue. }
  assert (fibers m1 !! id = Some (enqueue (NewState (buttonLocale b)) f)) as Hf1.
  { simpl. by rewrite list_lookup_alter_eq, Hf. }
  rewrite (bind_run (dispatch (SetState id) (NewState (buttonLocale b))) _ m () m1 eq_refl).
  rewrite (bind_run flush _ m1 () (flush m1).2 eq_refl).
  rewrite (App_run F env _ _ _ (useLocale_after_flush F env id _ m1 Hwf1 Hnear1 Hf1)).
  exists (alloc appTable (flush m1).2).2. split; [|split].
  - simpl. rewrite foldl_snoc. simpl. by rewrite appTable_lookup.
  - auto with fibers.
  - simpl. rewrite <- Hnear1. apply nearestProvider_ext.
    intros i. apply provides_imap_rerender.
Qed.

Lemma clicks_run F env id bs : ∀ m b tree,
  wf m →
  nearestProvider (fibers m) (ctx_id (LocaleContext F)) env = Some id →
  ∃ m',
    clicks F env (bs ++ [b]) (tree, mountedHooks (SetState id)) m
    = (Normal (AppJsx (buttonLocale b) (mountedHooks (SetState id))
                 (JsString (buttonTitle b)),
               mountedHooks (SetState id)), m').
Proof.
  induction bs as [|b0 bs IH]; intros m b tree Hwf Hnear.
  - destruct (click_run F env id m b tree Hwf Hnear) as (m' & Hrun & _ & _).
    exists m'. simpl. by rewrite (bind_run _ _ _ _ _ Hrun).
  - destruct (click_run F env id m b0 tree Hwf Hnear) as (m1 & Hrun & Hwf1 & Hnear1).
    destruct (IH m1 b (AppJsx (buttonLocale b0) (mountedHooks (SetState id))
                         (JsString (buttonTitle b0))) Hwf1 Hnear1) as (m' & Hrest).
    exists m'. simpl. by rewrite (bind_run _ _ _ _ _ Hrun).
Qed.

(** X10. Clicking a button of [App] under a provider switches the
    application to the language of that button: after the click [App]
    shows the button's locale and the heading written for it, whatever
    the locale was before. *)
Theorem click_switches_language F env id m b tree :
  wf m →
  nearestProvider (fibers m) (ctx_id (LocaleContext F)) env = Some id →
  (click F env b (tree, mountedHooks (SetState id)) m).1
  = Normal (AppJsx (buttonLocale b) (mountedHooks (SetState id))
              (JsString (buttonTitle b)),
            mountedHooks (SetState id)).
Proof.
  intros Hwf Hnear.
  destruct (click_run F env id m b tree Hwf Hnear) as (m' & -> & _). reflexivity.
Qed.

Lemma click_switches_language_witness :
  (click appFactory [0] SpanishButton (Text "", mountedHooks (SetState 0)) appMachine).1
  = Normal (AppJsx (buttonLocale SpanishButton) (mountedHooks (SetState 0))
              (JsString (buttonTitle SpanishButton)),
            mountedHooks (SetState 0)).
Proof.
  apply (click_switches_language appFactory [0] 0 appMachine SpanishButton (Text "")).
  - apply reachable_wf, appMachine_reachable.
  - reflexivity.
Defined.

Lemma main_run F root m :
  main F (Some root) m
  = (Normal (length (fibers m),
             (AppJsx (initialLocale F) (mountedHooks (SetState (length (fibers m))))
                (lookupText appTable "title" (initialLocale F)),
              mountedHooks (SetState (length (fibers m))))),
     (alloc appTable (mount F m).2).2).
Proof.
  unfold main. rewrite (bind_run (mount F) _ m _ _ eq_refl).
  rewrite (bind_run _ _ _ _ _ (App_run F _ None _ _ (useLocale_mounted F [] m))).
  reflexivity.
Qed.

Lemma nearestProvider_mounted F env m :
  nearestProvider (fibers (mount F m).2) (ctx_id (LocaleContext F))
    (length (fibers m) :: env) = Some (length (fibers m)).
Proof.
  simpl. rewrite list_lookup_middle by done. by rewrite decide_True.
Qed.

(** X11. From the start of main.tsx on, whatever buttons are clicked, [App]
    shows the locale of the last button clicked and the heading written
    for it: the heading is never [undefined], and the handlers memoised at
    the first render keep working through every later render. *)
Theorem main_then_clicks F root bs b m :
  wf m →
  ((r ← main F (Some root); clicks F [r.1] (bs ++ [b]) r.2) m).1
  = Normal (AppJsx (buttonLocale b) (mountedHooks (SetState (length (fibers m))))
              (JsString (buttonTitle b)),
            mountedHooks (SetState (length (fibers m)))).
Proof.
  intros Hwf. rewrite (bind_run _ _ _ _ _ (main_run F root m)). cbn [fst snd].
  destruct (clicks_run F [length (fibers m)] (length (fibers m)) bs
              (alloc appTable (mount F m).2).2 b
              (AppJsx (initialLocale F) (mountedHooks (SetState (length (fibers m))))
                 (lookupText appTable "title" (initialLocale F))))
    as (m' & ->); [auto with fibers | apply (nearestProvider_mounted F [] m) |].
  reflexivity.
Qed.

Lemma main_then_clicks_witness :
  ((r ← main appFactory (Some 0);
    clicks appFactory [r.1] ([EnglishButton; SpanishButton] ++ [FrenchButton]) r.2)
     emptyMachine).1
  = Normal (AppJsx (buttonLocale FrenchButton)
              (mountedHooks (SetState (length (fibers emptyMachine))))
              (JsString (buttonTitle FrenchButton)),
            mountedHooks (SetState (length (fibers emptyMachine)))).
Proof.
  apply (main_then_clicks appFactory 0 [EnglishButton; SpanishButton] FrenchButton
           emptyMachine).
  apply wf_empty.
Defined.

(** ** [App] without a provider *)

Lemma useLocale_default F env m :
  nearestProvider (fibers m) (ctx_id (LocaleContext F)) env = None →
  useLocale F env m = (Normal (defaultValue (LocaleContext F)), m).
Proof.
  intros Hnone. rewrite useLocale_run. unfold currentLocale, providedValue.
  rewrite Hnone. simpl. by destruct (defaultValue (LocaleContext F)).
Qed.

Lemma click_without_provider_run F env initial b tree m :
  defaultValue (LocaleContext F) = {| locale := initial; setLocale := Noop |} →
  nearestProvider (fibers m) (ctx_id (LocaleContext F)) env = None →
  ∃ m',
    click F env b (tree, mountedHooks Noop) m
    = (Normal (AppJsx initial (mountedHooks Noop) (lookupText appTable "title" initial),
               mountedHooks Noop), m')
    ∧ nearestProvider (fibers m') (ctx_id (LocaleContext F)) env = None.
Proof.
  intros Hdef Hnone. unfold click. cbn [snd]. rewrite call_onClickOf.
  rewrite (bind_run (dispatch Noop (NewState (buttonLocale b))) _ m () m eq_refl).
  rewrite (bind_run flush _ m () (flush m).2 eq_refl).
  assert (nearestProvider (fibers (flush m).2) (ctx_id (LocaleContext F)) env = None)
    as Hnone'.
  { rewrite <- Hnone. apply nearestProvider_ext. intros i. apply provides_imap_rerender. }
  rewrite (App_run F env _ _ _ (useLocale_default F env _ Hnone')). rewrite Hdef.
  by exists (alloc appTable (flush m).2).2.
Qed.

Lemma clicks_without_provider_run F env initial bs : ∀ tree m,
  defaultValue (LocaleContext F) = {| locale := initial; setLocale := Noop |} →
  nearestProvider (fibers m) (ctx_id (LocaleContext F)) env = None →
  (clicks F env bs (tree, mountedHooks Noop) m).1
  = Normal (match bs with
            | [] => tree
            | _ :: _ =>
                AppJsx initial (mountedHooks Noop) (lookupText appTable "title" initial)
            end, mountedHooks Noop).
Proof.
  induction bs as [|b bs IH]; intros tree m Hdef Hnone; [done|].
  destruct (click_without_provider_run F env initial b tree m Hdef Hnone)
    as (m' & Hrun & Hnone').
  simpl. rewrite (bind_run _ _ _ _ _ Hrun). rewrite (IH _ m' Hdef Hnone').
  by destruct bs.
Qed.

(** X12. Rendered with no provider of its factory above it, [App] shows the
    factory's initial locale, and its buttons do nothing: whatever buttons
    are clicked, the locale and the heading shown stay those of the first
    render. *)
Theorem App_without_provider_ignores_clicks initial m0 F m1 env m bs :
  createTranslations initial m0 = (Normal F, m1) →
  nearestProvider (fibers m) (ctx_id (LocaleContext F)) env = None →
  ((view ← App F env None; clicks F env bs view) m).1
  = Normal (AppJsx initial (mountedHooks Noop) (lookupText appTable "title" initial),
            mountedHooks Noop).
Proof.
  intros Hcreate Hnone.
  assert (defaultValue (LocaleContext F) = {| locale := initial; setLocale := Noop |})
    as Hdef.
  { injection Hcreate as <- _. reflexivity. }
  rewrite (bind_run _ _ _ _ _ (App_run F env None _ _ (useLocale_default F env m Hnone))).
  rewrite Hdef. cbn [locale setLocale default].
  rewrite (clicks_without_provider_run F env initial bs _ _ Hdef); [|done].
  by destruct bs.
Qed.

Lemma App_without_provider_ignores_clicks_witness :
  ((view ← App appFactory [] None;
    clicks appFactory [] [EnglishButton; SpanishButton] view) appMachine).1
  = Normal (AppJsx "fr" (mountedHooks Noop) (lookupText appTable "title" "fr"),
            mountedHooks Noop).
Proof.
  apply (App_without_provider_ignores_clicks "fr" emptyMachine appFactory
           (set_contexts 1 emptyMachine) [] appMachine [EnglishButton; SpanishButton]).
  - reflexivity.
  - reflexivity.
Defined.

(** ** Loading the application *)

(** X13. Loading main.tsx with a root element makes the factory with the
    initial locale ["fr"], mounts exactly one provider and shows the French
    heading; with no root element it raises ["Root element not found."]
    and mounts nothing. *)
Theorem loadMain_spec root m :
  (∃ F,
     (loadMain (Some root) m).1
     = Normal (F, (length (fibers m),
                   (AppJsx "fr" (mountedHooks (SetState (length (fibers m))))
                      (JsString "Bonjour, tout le monde !"),
                    mountedHooks (SetState (length (fibers m))))))
     ∧ initialLocale F = "fr"
     ∧ fibers (loadMain (Some root) m).2
       = fibers m ++ [LocaleProvider F (length (fibers m)) None])
  ∧ (loadMain None m).1 = Throw "Root element not found."
  ∧ fibers (loadMain None m).2 = fibers m.
Proof.
  split; [|done].
  exists {| initialLocale := "fr";
            LocaleContext := {| ctx_id := contexts m;
                                defaultValue := {| locale := "fr"; setLocale := Noop |} |} |}.
  unfold loadMain, translateModule.
  rewrite (bind_run (createTranslations "fr") _ m _ _ eq_refl).
  rewrite (bind_run _ _ _ _ _ (main_run _ root _)).
  split; [|done]. simpl. do 5 f_equal.
Qed.

(** ** What a render of [App] leaves behind *)

(** X14. A render of [App] changes no locale state and writes nothing: the
    provider fibers, the contexts and the console are left as they were,
    the tables already on the heap are untouched (the render only adds the
    table of its own object literal), and rendering again right away gives
    the same element with the same handlers. *)
Theorem App_render_keeps_state F env hooks m :
  fibers (App F env hooks m).2 = fibers m
  ∧ contexts (App F env hooks m).2 = contexts m
  ∧ console (App F env hooks m).2 = console m
  ∧ (∀ o (t : Translations), heap m !! o = Some t → heap (App F env hooks m).2 !! o = Some t)
  ∧ ∃ tree h,
      (App F env hooks m).1 = Normal (tree, h)
      ∧ (App F env (Some h) (App F env hooks m).2).1 = Normal (tree, h).
Proof.
  rewrite (App_run F env hooks m _ (useLocale_run F env m)).
  cbn [fst snd]. split; [done|]. split; [done|]. split; [done|]. split.
  - intros o t Ho. simpl. rewrite lookup_insert_ne; [done|].
    intros <-. by rewrite alloc_fresh in Ho.
  - eexists _, _. split; [reflexivity|].
    by rewrite (App_run F env _ (alloc appTable m).2 _
                  (useLocale_run F env (alloc appTable m).2)).
Qed.

(** ** The memoised context value *)

(** X15. The value a provider memoises on [[locale]] alone is never out of
    date: in every machine a program can build, what a provider hands to
    its descendants is the locale of its last render together with its own
    setter, so a component under it reads exactly that. *)
Theorem memoised_value_never_stale F env id f m :
  reachable m →
  nearestProvider (fibers m) (ctx_id (LocaleContext F)) env = Some id →
  fibers m !! id = Some f →
  memoValue f = {| locale := memoizedState f; setLocale := SetState id |}
  ∧ useLocale F env m
    = (Normal {| locale := memoizedState f; setLocale := SetState id |}, m).
Proof.
  intros Hreach Hnear Hf. pose proof (reachable_wf m Hreach) as Hwf. split.
  - by destruct (Hwf id f Hf).
  - by apply useLocale_provider.
Qed.

Lemma memoised_value_never_stale_witness :
  memoValue (LocaleProvider appFactory 0 None)
  = {| locale := memoizedState (LocaleProvider appFactory 0 None); setLocale := SetState 0 |}
  ∧ useLocale appFactory [0] appMachine
    = (Normal {| locale := memoizedState (LocaleProvider appFactory 0 None);
                 setLocale := SetState 0 |}, appMachine).
Proof.
  apply (memoised_value_never_stale appFactory [0] 0 (LocaleProvider appFactory 0 None)
           appMachine).
  - exists [OpCreate "fr"; OpAlloc titleTable; OpAlloc partialTable; OpMount appFactory].
    vm_compute. reflexivity.
  - reflexivity.
  - reflexivity.
Defined.
